(** * SILT configuration system: a model of [silt/config.py]

    [Config] is a Python [dict] subclass with four ways of populating it:
    [from_object], [from_yaml], [from_file] and [update_from_mapping].
    This development embeds the class as functions on a finite map and
    proves the behaviour the specification states about them.

    Conventions of the embedding:
    - a Python [str] is the list of its code points;
    - the dictionary is a [gmap] from keys to values;
    - a method is a function [store -> store * result A]: the dictionary
      is mutated in place, so the store that comes back is the one the
      caller sees even when the call raises;
    - the file system is an argument of the methods that read it, as it
      is when the call is made;
    - the character database behind [str.isupper] and the function
      [yaml.safe_load], which the host provides, are variables of the
      section. *)

From Stdlib Require Import ZArith NArith String Ascii List Bool Lia.
From stdpp Require Import gmap strings list fin_maps pretty.

Local Open Scope string_scope.
Local Open Scope list_scope.

(** ** Strings and the host's character database *)

Abbreviation pystr := (list N).

(** The code points of a literal, for writing keys down. *)
Definition u (s : string) : pystr :=
  map N_of_ascii (list_ascii_of_string s).

(** The classes of cased characters: [str.isupper], [str.islower] and
    [str.istitle] each test one of them, and a character is in at most one. *)
Inductive cased := Upper | Lower | Title.

(** What the character database says about code points outside ASCII. *)
Record ucd := Ucd {
  ucd_case : N -> option cased;
  ucd_alpha : N -> bool;
  ucd_upper : N -> list N
}.

Definition ascii_case (c : N) : option cased :=
  if (65 <=? c)%N && (c <=? 90)%N then Some Upper
  else if (97 <=? c)%N && (c <=? 122)%N then Some Lower
  else None.

Definition ascii_upper (c : N) : N :=
  if (97 <=? c)%N && (c <=? 122)%N then (c - 32)%N else c.

Definition isascii (s : pystr) : bool := forallb (fun c => (c <? 128)%N) s.

(** [bytes.isupper]: no byte is one of a..z and at least one is one of
    A..Z; bytes from 128 on have no case. *)
Fixpoint bytes_isupper_from (found : bool) (b : list N) : bool :=
  match b with
  | [] => found
  | c :: r =>
      match ascii_case c with
      | Some Upper => bytes_isupper_from true r
      | Some Lower | Some Title => false
      | None => bytes_isupper_from found r
      end
  end.

Definition bytes_isupper (b : list N) : bool := bytes_isupper_from false b.

(** ** Python values, keys and exceptions *)

Inductive value :=
  | VNone
  | VBool (b : bool)
  | VInt (z : Z)
  | VStr (s : pystr).

(** A dictionary key is a hashable object: a [str]; an object without an
    [isupper] method, for which integers stand; a [bytes] object, whose
    [isupper] looks at ASCII letters only; or an object of another class
    with an [isupper] method of its own, known by an identity and by what
    the method returns. *)
Inductive key :=
  | KStr (s : pystr)
  | KInt (z : Z)
  | KBytes (b : list N)
  | KObj (id : N) (up : bool).

#[global] Instance key_eq_dec : EqDecision key.
Proof. solve_decision. Defined.

#[global] Instance key_countable : Countable key.
Proof.
  refine (inj_countable'
    (fun k => match k with
              | KStr s => inl (inl s)
              | KInt z => inl (inr z)
              | KBytes b => inr (inl b)
              | KObj id up => inr (inr (id, up))
              end)
    (fun x => match x with
              | inl (inl s) => KStr s
              | inl (inr z) => KInt z
              | inr (inl b) => KBytes b
              | inr (inr (id, up)) => KObj id up
              end) _).
  by intros [].
Defined.

(** [OSError] (of which [IOError] is an alias) with the attributes the
    code reads and writes. *)
Record oserror := OSError {
  errno : option Z;
  strerror : option string;
  filename : option string
}.

Definition ENOENT : Z := 2.
Definition EACCES : Z := 13.
Definition EISDIR : Z := 21.

(** [Exception cls msg] is any exception that is not an [OSError], a
    [TypeError] or an [AttributeError]. *)
Inductive exn :=
  | TypeError (msg : string)
  | AttributeError (msg : string)
  | IOError (e : oserror)
  | Exception (cls msg : string).

Inductive result (A : Type) :=
  | Ok (a : A)
  | Raise (e : exn).
Arguments Ok {A} a.
Arguments Raise {A} e.

Definition is_ioerror (e : exn) : bool :=
  match e with IOError _ => true | _ => false end.

(** ** Sources of key/value pairs *)

(** The positional argument of [update_from_mapping]: an object with an
    [items] method (a mapping), or an iterable of pairs. The pairs are
    well formed: an argument that cannot be iterated and an element that
    is not a pair, on which the loop raises, are not modelled. *)
Inductive source :=
  | Mapping (d : list (key * value))
  | Pairs (l : list (key * value)).

(** An object as [from_object] sees it: the names [dir] lists, and what
    [getattr] gives for a name. *)
Record pyobject := PyObject {
  dir : list pystr;
  getattr : pystr -> result value
}.

Abbreviation store := (gmap key value).

(** [open(filepath)] in a file system: the content of the file, or the
    [OSError] raised. *)
Abbreviation filesystem := (string -> oserror + string).

(** ** The class, over what the host provides *)

Section Config.

(** The character database outside ASCII. *)
Variable ext : ucd.

(** [yaml.safe_load] on the content of a file. *)
Variable yaml_safe_load : string -> result source.

Definition char_case (c : N) : option cased :=
  if (c <? 128)%N then ascii_case c else ucd_case ext c.

Definition char_isalpha (c : N) : bool :=
  if (c <? 128)%N then bool_decide (is_Some (ascii_case c)) else ucd_alpha ext c.

Definition char_upper (c : N) : list N :=
  if (c <? 128)%N then [ascii_upper c] else ucd_upper ext c.

(** [str.isupper]: no lowercase or titlecase character, and at least one
    uppercase one. [found] records that an uppercase character was seen. *)
Fixpoint isupper_from (found : bool) (s : pystr) : bool :=
  match s with
  | [] => found
  | c :: r =>
      match char_case c with
      | Some Upper => isupper_from true r
      | Some Lower | Some Title => false
      | None => isupper_from found r
      end
  end.

Definition isupper (s : pystr) : bool := isupper_from false s.

(** [str.upper]. *)
Definition upper (s : pystr) : pystr := flat_map char_upper s.

(** [key.isupper()] on a key of any type. *)
Definition key_isupper (k : key) : result bool :=
  match k with
  | KStr s => Ok (isupper s)
  | KInt _ => Raise (AttributeError "'int' object has no attribute 'isupper'")
  | KBytes b => Ok (bytes_isupper b)
  | KObj _ up => Ok up
  end.

(** [Config.__init__]: [dict.__init__(self, defaults)], later pairs
    replacing earlier ones with the same key. *)
Definition source_items (m : source) : list (key * value) :=
  match m with
  | Mapping d => d
  | Pairs l => l
  end.

Definition dict_init (l : list (key * value)) : store :=
  fold_left (fun d kv => <[kv.1 := kv.2]> d) l ∅.

Definition Config (defaults : source) : store :=
  dict_init (source_items defaults).

(** The inner loop of [update_from_mapping]:
    [for key, value in mapping: if key.isupper(): self[key] = value]. *)
Fixpoint update_pairs (mapping : list (key * value)) (self : store)
  : store * result unit :=
  match mapping with
  | [] => (self, Ok tt)
  | (k, v) :: rest =>
      match key_isupper k with
      | Raise e => (self, Raise e)
      | Ok true => update_pairs rest (<[k := v]> self)
      | Ok false => update_pairs rest self
      end
  end.

(** The outer loop, [for mapping in mappings]. *)
Fixpoint update_all (mappings : list (list (key * value))) (self : store)
  : store * result unit :=
  match mappings with
  | [] => (self, Ok tt)
  | m :: rest =>
      match update_pairs m self with
      | (self', Ok _) => update_all rest self'
      | (self', Raise e) => (self', Raise e)
      end
  end.

Definition kwargs_items (kwargs : list (pystr * value)) : list (key * value) :=
  map (fun kv => (KStr kv.1, kv.2)) kwargs.

Definition update_from_mapping
    (mapping : list source) (kwargs : list (pystr * value)) (self : store)
  : store * result bool :=
  match mapping with
  | _ :: _ :: _ =>
      (self, Raise (TypeError
         ("Config mapping expected at most 1 argument, got "
            +:+ pretty (length mapping))))
  | _ =>
      let mappings := map source_items mapping ++ [kwargs_items kwargs] in
      match update_all mappings self with
      | (self', Ok _) => (self', Ok true)
      | (self', Raise e) => (self', Raise e)
      end
  end.

(** [from_object]. *)
Fixpoint from_object_names (names : list pystr) (obj : pyobject) (self : store)
  : store * result unit :=
  match names with
  | [] => (self, Ok tt)
  | k :: rest =>
      if isupper k then
        match getattr obj k with
        | Ok v => from_object_names rest obj (<[KStr k := v]> self)
        | Raise e => (self, Raise e)
        end
      else from_object_names rest obj self
  end.

Definition from_object (obj : pyobject) (self : store) : store * result unit :=
  from_object_names (dir obj) obj self.

(** [from_file]. The [try] block covers both [open] and the call of the
    loader; the handler is for [IOError] only. *)
Definition errno_in (e : oserror) (codes : list Z) : bool :=
  match errno e with
  | Some n => bool_decide (n ∈ codes)
  | None => false
  end.

Definition format_strerror (s : option string) : string :=
  match s with
  | Some s => s
  | None => "None"
  end.

Definition annotate (e : oserror) : oserror :=
  {| errno := errno e;
     strerror := Some ("Unable to load configuration file: "
                         +:+ format_strerror (strerror e));
     filename := filename e |}.

Definition open_and_load
    (fs : filesystem) (filepath : string) (loader : string -> result source)
  : result source :=
  match fs filepath with
  | inl e => Raise (IOError e)
  | inr f => loader f
  end.

Definition from_file
    (fs : filesystem) (filepath : string) (loader : string -> result source)
    (silent : bool) (self : store) : store * result bool :=
  match open_and_load fs filepath loader with
  | Raise (IOError e) =>
      if silent && errno_in e [ENOENT; EISDIR] then (self, Ok false)
      else (self, Raise (IOError (annotate e)))
  | Raise e => (self, Raise e)
  | Ok confobj => update_from_mapping [confobj] [] self
  end.

(** [from_yaml]: no [silent] parameter, and the result of [from_file] is
    dropped. *)
Definition from_yaml (fs : filesystem) (filepath : string) (self : store)
  : store * result unit :=
  match from_file fs filepath yaml_safe_load false self with
  | (self', Ok _) => (self', Ok tt)
  | (self', Raise e) => (self', Raise e)
  end.

(** ** Sequences of calls *)

Inductive call :=
  | FromObject (obj : pyobject)
  | FromYaml (filepath : string)
  | FromFile (filepath : string) (loader : string -> result source)
      (silent : bool)
  | UpdateFromMapping (mapping : list source) (kwargs : list (pystr * value)).

(** The store after a call, whether it returned or raised. *)
Definition run_call (fs : filesystem) (c : call) (self : store) : store :=
  match c with
  | FromObject obj => (from_object obj self).1
  | FromYaml filepath => (from_yaml fs filepath self).1
  | FromFile filepath loader silent =>
      (from_file fs filepath loader silent self).1
  | UpdateFromMapping mapping kwargs =>
      (update_from_mapping mapping kwargs self).1
  end.

(** Calls in sequence, each against the file system of its time. *)
Definition run_calls (cs : list (filesystem * call)) (self : store) : store :=
  fold_left (fun s c => run_call c.1 c.2 s) cs self.

(** ** Properties of stores and keys *)

(** The test of the code: [key.isupper()] returns and is true. *)
Definition isupper_key (k : key) : Prop := key_isupper k = Ok true.

Definition isupper_keys (self : store) : Prop :=
  forall k, is_Some (self !! k) -> isupper_key k.

Definition string_key (k : key) : Prop :=
  match k with
  | KStr _ => True
  | _ => False
  end.

(** The uppercase predicate in the words of the specification: the key
    equals its own uppercase transform and contains at least one
    alphabetic character. *)
Definition uppercase_predicate (s : pystr) : bool :=
  bool_decide (s = upper s) && existsb char_isalpha s.

(** The invariant in the words of the specification: every key of the
    store is a string that satisfies the uppercase predicate. *)
Definition predicate_key (k : key) : Prop :=
  match k with
  | KStr s => uppercase_predicate s = true
  | _ => False
  end.

Definition predicate_keys (self : store) : Prop :=
  forall k, is_Some (self !! k) -> predicate_key k.

(** [loadFromYAML(path, silent)] in the words of the specification:
    [loadFromFile] with the YAML deserializer and the caller's [silent]. *)
Definition loadFromYAML
    (fs : filesystem) (filepath : string) (silent : bool) (self : store)
  : store * result bool :=
  from_file fs filepath yaml_safe_load silent self.

(** What a caller observes of a call: the value returned, or the
    exception. *)
Definition returned_bool (r : result bool) : result value :=
  match r with
  | Ok b => Ok (VBool b)
  | Raise e => Raise e
  end.

Definition returned_none (r : result unit) : result value :=
  match r with
  | Ok _ => Ok VNone
  | Raise e => Raise e
  end.

(** ** The writes of a loop *)

(** The assignments [self[key] = value] a run of the inner loop makes, in
    order: the pairs with an uppercase key, up to the first key on which
    [isupper] raises. *)
Fixpoint writes (mapping : list (key * value)) : list (key * value) :=
  match mapping with
  | [] => []
  | (k, v) :: rest =>
      match key_isupper k with
      | Raise _ => []
      | Ok true => (k, v) :: writes rest
      | Ok false => writes rest
      end
  end.

(** The same for [from_object]. *)
Fixpoint object_writes (names : list pystr) (obj : pyobject)
  : list (key * value) :=
  match names with
  | [] => []
  | k :: rest =>
      if isupper k then
        match getattr obj k with
        | Ok v => (KStr k, v) :: object_writes rest obj
        | Raise _ => []
        end
      else object_writes rest obj
  end.

Definition apply_writes (w : list (key * value)) (self : store) : store :=
  fold_left (fun d kv => <[kv.1 := kv.2]> d) w self.

(** The value a sequence of assignments leaves at [k], if it assigns [k]. *)
Fixpoint final_write (w : list (key * value)) (k : key) : option value :=
  match w with
  | [] => None
  | (k', v) :: rest =>
      match final_write rest k with
      | Some x => Some x
      | None => if decide (k' = k) then Some v else None
      end
  end.

(** The writes of each method. *)
Definition mapping_writes
    (mapping : list source) (kwargs : list (pystr * value))
  : list (key * value) :=
  match mapping with
  | _ :: _ :: _ => []
  | _ => writes (concat (map source_items mapping ++ [kwargs_items kwargs]))
  end.

Definition file_writes
    (fs : filesystem) (filepath : string) (loader : string -> result source)
  : list (key * value) :=
  match open_and_load fs filepath loader with
  | Ok confobj => mapping_writes [confobj] []
  | Raise _ => []
  end.

Definition call_writes (fs : filesystem) (c : call) : list (key * value) :=
  match c with
  | FromObject obj => object_writes (dir obj) obj
  | FromYaml filepath => file_writes fs filepath yaml_safe_load
  | FromFile filepath loader _ => file_writes fs filepath loader
  | UpdateFromMapping mapping kwargs => mapping_writes mapping kwargs
  end.

(** The attributes of an object as pairs: a name of [dir(obj)] with its
    value, for the names [getattr] can read. *)
Definition names_items (names : list pystr) (obj : pyobject)
  : list (key * value) :=
  omap (fun n => match getattr obj n with
                 | Ok v => Some (KStr n, v)
                 | Raise _ => None
                 end) names.

Definition object_items (obj : pyobject) : list (key * value) :=
  names_items (dir obj) obj.

(** The keys of ASCII letters. *)
Definition ascii_lowercase (c : N) : bool := (97 <=? c)%N && (c <=? 122)%N.
Definition ascii_uppercase (c : N) : bool := (65 <=? c)%N && (c <=? 90)%N.

(** ** Sample data

    An excerpt of the Unicode character database: U+00AA (feminine
    ordinal indicator) is a letter with the Lowercase property and no
    uppercase mapping, U+4E2D is a letter without case, U+2160 (roman
    numeral one) has the Uppercase property and is not a letter. *)
Definition sample_ucd : ucd :=
  {| ucd_case c :=
       if (c =? 0xAA)%N then Some Lower
       else if (c =? 0x2160)%N then Some Upper
       else None;
     ucd_alpha c := (c =? 0xAA)%N || (c =? 0x4E2D)%N;
     ucd_upper c := [c] |}.

(** A file system with a configuration file, a file that is not YAML, a
    directory, a file that may not be read, and nothing else. *)
Definition sample_fs : filesystem := fun path =>
  if decide (path = "config.yaml") then inr "UPPER: 5"
  else if decide (path = "broken.yaml") then inr "UPPER: ["
  else if decide (path = "/etc") then
    inl (OSError (Some EISDIR) (Some "Is a directory") (Some path))
  else if decide (path = "/root/secret.yaml") then
    inl (OSError (Some EACCES) (Some "Permission denied") (Some path))
  else inl (OSError (Some ENOENT) (Some "No such file or directory") (Some path)).

(** What [yaml.safe_load] gives on the contents of these files. *)
Definition sample_yaml : string -> result source := fun content =>
  if decide (content = "UPPER: 5") then
    Ok (Mapping [(KStr (u "UPPER"), VInt 5)])
  else Raise (Exception "yaml.YAMLError" "could not parse the document").

(** A loader that fails to read a file of its own. *)
Definition include_loader : string -> result source := fun _ =>
  Raise (IOError (OSError (Some ENOENT) (Some "No such file or directory")
                    (Some "included.yaml"))).

(** An object with [UPPER = 5] and [lower = 6]; [dir] lists the names in
    sorted order, among them those every object has. *)
Definition upper_lower_object : pyobject :=
  {| dir := [u "UPPER"; u "__class__"; u "__doc__"; u "lower"];
     getattr n :=
       if decide (n = u "UPPER") then Ok (VInt 5)
       else if decide (n = u "lower") then Ok (VInt 6)
       else if decide (n = u "__class__") then Ok (VStr (u "Settings"))
       else if decide (n = u "__doc__") then Ok VNone
       else Raise (AttributeError "object has no such attribute") |}.

(** An object with an attribute whose name is the letter U+4E2D. *)
Definition cjk_object : pyobject :=
  {| dir := [u "__doc__"; [0x4E2D%N]];
     getattr n :=
       if decide (n = [0x4E2D%N]) then Ok (VInt 7)
       else if decide (n = u "__doc__") then Ok VNone
       else Raise (AttributeError "object has no such attribute") |}.

(** A loader whose mapping has a key that is not a string. *)
Definition mixed_keys_loader : string -> result source := fun _ =>
  Ok (Mapping [(KStr (u "HOST"), VStr (u "localhost"));
               (KInt 8080, VBool true);
               (KStr (u "PORT"), VInt 8080)]).

(** An object with a property whose getter raises. *)
Definition failing_object : pyobject :=
  {| dir := [u "ALPHA"; u "BROKEN"; u "OMEGA"; u "__doc__"];
     getattr n :=
       if decide (n = u "ALPHA") then Ok (VInt 1)
       else if decide (n = u "OMEGA") then Ok (VInt 2)
       else if decide (n = u "__doc__") then Ok VNone
       else Raise (Exception "RuntimeError" "no value yet") |}.

(** ** The loops as sequences of writes *)

Lemma apply_writes_lookup w self k :
  apply_writes w self !! k =
    match final_write w k with
    | Some v => Some v
    | None => self !! k
    end.
Proof.
  revert self. induction w as [|[k' v] w IH]; intros self; simpl; [done|].
  rewrite IH. destruct (final_write w k); [done|].
  rewrite lookup_insert. by destruct (decide (k' = k)).
Qed.

Lemma apply_writes_idemp w self :
  apply_writes w (apply_writes w self) = apply_writes w self.
Proof.
  apply map_eq. intros k. rewrite !apply_writes_lookup.
  by destruct (final_write w k).
Qed.

Lemma final_write_elem w k v :
  final_write w k = Some v -> (k, v) ∈ w.
Proof.
  induction w as [|[k' v'] w IH]; simpl; [done|].
  destruct (final_write w k) as [x|].
  - intros [= ->]. right. by apply IH.
  - destruct (decide (k' = k)) as [->|]; [|done]. intros [= ->]. left.
Qed.

Lemma final_write_None w k :
  final_write w k = None <-> k ∉ w.*1.
Proof.
  induction w as [|[k' v'] w IH]; simpl.
  - split; [intros _; apply not_elem_of_nil | done].
  - rewrite not_elem_of_cons. destruct (final_write w k) as [x|].
    + split; [done|]. intros [_ H]. by apply IH in H.
    + destruct (decide (k' = k)) as [->|Hne].
      * split; [done|]. by intros [? _].
      * split; [|done]. intros _. split; [done|]. by apply IH.
Qed.

Lemma update_pairs_writes mapping self :
  (update_pairs mapping self).1 = apply_writes (writes mapping) self.
Proof.
  revert self. induction mapping as [|[k v] rest IH]; intros self; simpl; [done|].
  destruct (key_isupper k) as [[]|e]; simpl; by rewrite ?IH.
Qed.

Lemma update_pairs_app l1 l2 self :
  update_pairs (l1 ++ l2) self =
    match update_pairs l1 self with
    | (self', Ok _) => update_pairs l2 self'
    | (self', Raise e) => (self', Raise e)
    end.
Proof.
  revert self. induction l1 as [|[k v] l1 IH]; intros self; simpl; [done|].
  destruct (key_isupper k) as [[]|e]; by rewrite ?IH.
Qed.

Lemma update_all_concat mappings self :
  update_all mappings self = update_pairs (concat mappings) self.
Proof.
  revert self. induction mappings as [|m rest IH]; intros self; simpl; [done|].
  rewrite update_pairs_app. destruct (update_pairs m self) as [self' [[]|e]]; by rewrite ?IH.
Qed.

Lemma from_object_writes names obj self :
  (from_object_names names obj self).1 =
    apply_writes (object_writes names obj) self.
Proof.
  revert self. induction names as [|k rest IH]; intros self; simpl; [done|].
  destruct (isupper k); [|by rewrite IH].
  destruct (getattr obj k); simpl; by rewrite ?IH.
Qed.

Lemma update_from_mapping_writes mapping kwargs self :
  (update_from_mapping mapping kwargs self).1 =
    apply_writes (mapping_writes mapping kwargs) self.
Proof.
  unfold update_from_mapping, mapping_writes.
  destruct mapping as [|m [|m' rest]]; try done;
    rewrite update_all_concat, <- update_pairs_writes;
    by destruct (update_pairs _ self) as [self' [[]|e]].
Qed.

Lemma from_file_writes fs filepath loader silent self :
  (from_file fs filepath loader silent self).1 =
    apply_writes (file_writes fs filepath loader) self.
Proof.
  unfold from_file, file_writes.
  destruct (open_and_load fs filepath loader) as [confobj|e].
  - apply update_from_mapping_writes.
  - destruct e as [| |e|]; try done.
    by destruct (silent && errno_in e [ENOENT; EISDIR]).
Qed.

Lemma from_yaml_writes fs filepath self :
  (from_yaml fs filepath self).1 =
    apply_writes (file_writes fs filepath yaml_safe_load) self.
Proof.
  unfold from_yaml. rewrite <- (from_file_writes fs filepath yaml_safe_load false).
  by destruct (from_file fs filepath yaml_safe_load false self) as [self' [b|e]].
Qed.

Lemma run_call_writes fs c self :
  run_call fs c self = apply_writes (call_writes fs c) self.
Proof.
  destruct c; simpl.
  - apply from_object_writes.
  - apply from_yaml_writes.
  - apply from_file_writes.
  - apply update_from_mapping_writes.
Qed.

(** A key is written only when [isupper()] is true of it. *)
Lemma writes_uppercase mapping :
  Forall (fun kv => isupper_key kv.1) (writes mapping).
Proof.
  induction mapping as [|[k v] rest IH]; simpl; [constructor|].
  destruct (key_isupper k) as [[]|e] eqn:Hk; [by constructor | done | constructor].
Qed.

Lemma object_writes_uppercase names obj :
  Forall (fun kv => isupper_key kv.1) (object_writes names obj).
Proof.
  induction names as [|k rest IH]; simpl; [constructor|].
  destruct (isupper k) eqn:Hk; [|done].
  destruct (getattr obj k); constructor; [|done].
  unfold isupper_key. simpl. by rewrite Hk.
Qed.

Lemma call_writes_uppercase fs c :
  Forall (fun kv => isupper_key kv.1) (call_writes fs c).
Proof.
  assert (Hm : forall m k,
             Forall (fun kv => isupper_key kv.1) (mapping_writes m k)).
  { intros m k. unfold mapping_writes.
    destruct m as [|? [|? ?]]; (apply writes_uppercase || constructor). }
  assert (Hf : forall p l,
             Forall (fun kv => isupper_key kv.1) (file_writes fs p l)).
  { intros p l. unfold file_writes.
    destruct (open_and_load fs p l); [apply Hm | constructor]. }
  destruct c; simpl; auto using object_writes_uppercase.
Qed.

Lemma apply_writes_uppercase w self :
  Forall (fun kv => isupper_key kv.1) w ->
  isupper_keys self -> isupper_keys (apply_writes w self).
Proof.
  intros Hw Hself k. rewrite apply_writes_lookup.
  destruct (final_write w k) as [v|] eqn:Hk; [|apply Hself].
  intros _. apply final_write_elem in Hk.
  rewrite Forall_forall in Hw. apply (Hw (k, v) Hk).
Qed.

Lemma run_calls_uppercase cs self :
  isupper_keys self -> isupper_keys (run_calls cs self).
Proof.
  revert self. induction cs as [|[fs c] cs IH]; intros self Hself; [done|].
  simpl. apply IH. rewrite run_call_writes.
  by apply apply_writes_uppercase; [apply call_writes_uppercase|].
Qed.

Lemma dict_init_lookup l k :
  dict_init l !! k = final_write l k.
Proof.
  unfold dict_init. change (fold_left _ l ∅) with (apply_writes l ∅).
  rewrite apply_writes_lookup, lookup_empty. by destruct (final_write l k).
Qed.

(** The outcome of the loops depends on the pairs only, not on the store. *)
Lemma update_pairs_outcome mapping self self' :
  (update_pairs mapping self).2 = (update_pairs mapping self').2.
Proof.
  revert self self'. induction mapping as [|[k v] rest IH]; intros; simpl; [done|].
  destruct (key_isupper k) as [[]|e]; simpl; auto.
Qed.

Lemma update_from_mapping_outcome mapping kwargs self self' :
  (update_from_mapping mapping kwargs self).2 =
    (update_from_mapping mapping kwargs self').2.
Proof.
  unfold update_from_mapping.
  destruct mapping as [|m [|m' rest]]; try done;
    rewrite !update_all_concat;
    match goal with
    | |- context [update_pairs ?l self] =>
        pose proof (update_pairs_outcome l self self') as H;
        destruct (update_pairs l self) as [? [[]|?]],
                 (update_pairs l self') as [? [[]|?]]
    end; simpl in *; congruence.
Qed.

Lemma update_pairs_strings mapping self :
  Forall string_key mapping.*1 -> (update_pairs mapping self).2 = Ok tt.
Proof.
  revert self. induction mapping as [|[k v] rest IH]; intros self; simpl; [done|].
  rewrite Forall_cons. intros [Hk Hrest]. destruct k as [s| | |]; try done. simpl.
  destruct (isupper s); auto.
Qed.

Lemma kwargs_items_strings kwargs : Forall string_key (kwargs_items kwargs).*1.
Proof. induction kwargs as [|[k v] rest IH]; simpl; by constructor. Qed.

Lemma writes_app l1 l2 :
  Forall string_key l1.*1 -> writes (l1 ++ l2) = writes l1 ++ writes l2.
Proof.
  induction l1 as [|[k v] l1 IH]; simpl; [done|].
  rewrite Forall_cons. intros [Hk Hl1]. destruct k as [s| | |]; try done. simpl.
  destruct (isupper s); simpl; by rewrite IH.
Qed.

Lemma writes_elem mapping kv : kv ∈ writes mapping -> kv ∈ mapping.
Proof.
  induction mapping as [|[k v] rest IH]; simpl; [done|].
  destruct (key_isupper k) as [[]|e].
  - intros [->|H]%elem_of_cons; [left | right; auto].
  - intros H. right. auto.
  - by intros H%elem_of_nil.
Qed.

Lemma final_write_app w1 w2 k :
  final_write (w1 ++ w2) k =
    match final_write w2 k with
    | Some x => Some x
    | None => final_write w1 k
    end.
Proof.
  induction w1 as [|[k' v] w1 IH]; simpl; [by destruct (final_write w2 k)|].
  rewrite IH. by destruct (final_write w2 k).
Qed.

Lemma final_write_kwargs kwargs k v :
  NoDup kwargs.*1 -> (k, v) ∈ kwargs -> isupper k = true ->
  final_write (writes (kwargs_items kwargs)) (KStr k) = Some v.
Proof.
  induction kwargs as [|[k' v'] rest IH]; simpl.
  - by intros _ H%elem_of_nil.
  - rewrite NoDup_cons. intros [Hk' Hnd] [[= -> ->]|Hin]%elem_of_cons Hup.
    + rewrite Hup. simpl.
      assert (final_write (writes (kwargs_items rest)) (KStr k') = None) as ->.
      { apply final_write_None. intros [[k0 v0] [Hk0 H0]]%list_elem_of_fmap.
        simpl in Hk0. subst k0. apply writes_elem in H0.
        apply list_elem_of_fmap in H0 as [[k1 v1] [[= <- <-] H1]].
        apply Hk'. apply list_elem_of_fmap. by exists (k', v0). }
      by rewrite decide_True.
    + specialize (IH Hnd Hin Hup).
      destruct (isupper k'); simpl; by rewrite IH.
Qed.

(** ** The claims *)

(** C1, amended. The load operations write a key only when
    [key.isupper()] is true of it, and construction copies the defaults
    mapping as it is. So the calls keep "[isupper()] is true of every key
    of the store" once it holds, and it holds after any sequence of calls
    on a store built from defaults of whose keys it is true, the empty
    store among them. *)
Theorem isupper_keys_preserved
    (defaults : source) (cs : list (filesystem * call)) :
  Forall (fun kv => isupper_key kv.1) (source_items defaults) ->
  isupper_keys (run_calls cs (Config defaults)) /\
  (forall self, isupper_keys self -> isupper_keys (run_calls cs self)).
Proof.
  intros Hd. split; [|intros self; apply run_calls_uppercase].
  apply run_calls_uppercase. intros k [v Hk].
  unfold Config in Hk. rewrite dict_init_lookup in Hk.
  apply final_write_elem in Hk. rewrite Forall_forall in Hd.
  apply (Hd (k, v) Hk).
Qed.

(** C5. A call of [update_from_mapping] with more than one positional
    argument raises [TypeError] and leaves the store as it was. *)
Theorem update_from_mapping_arity
    (mapping : list source) (kwargs : list (pystr * value)) (self : store) :
  1 < length mapping ->
  update_from_mapping mapping kwargs self =
    (self, Raise (TypeError
       ("Config mapping expected at most 1 argument, got "
          +:+ pretty (length mapping)))).
Proof.
  intros Hlen. destruct mapping as [|m [|m' rest]]; simpl in Hlen; [lia..|done].
Qed.

(** C7. [update_from_mapping] runs the pairs of the positional source and
    then the keyword bindings, as one loop over their concatenation. When
    the keys of the positional source are strings the call returns [True],
    and an uppercase key bound by a keyword ends with the keyword's value
    whatever the positional source gave it:
    [update_from_mapping({"A": 1}, A=2)] leaves [A -> 2]. A call that
    returns returns [True]. *)
Theorem keyword_overrides_positional
    (m : source) (kwargs : list (pystr * value)) (self : store)
    (k : pystr) (v : value) :
  Forall string_key (source_items m).*1 ->
  NoDup kwargs.*1 -> (k, v) ∈ kwargs -> isupper k = true ->
  (update_from_mapping [m] kwargs self).1 =
    (update_pairs (source_items m ++ kwargs_items kwargs) self).1 /\
  (update_from_mapping [m] kwargs self).2 = Ok true /\
  (update_from_mapping [m] kwargs self).1 !! KStr k = Some v /\
  update_from_mapping [Mapping [(KStr (u "A"), VInt 1)]] [(u "A", VInt 2)] ∅ =
    ({[KStr (u "A") := VInt 2]}, Ok true) /\
  (forall mapping' kwargs' self' b,
     (update_from_mapping mapping' kwargs' self').2 = Ok b -> b = true).
Proof.
  intros Hm Hnd Hin Hup.
  assert (Hstore : (update_from_mapping [m] kwargs self).1 =
            (update_pairs (source_items m ++ kwargs_items kwargs) self).1).
  { unfold update_from_mapping. rewrite update_all_concat. simpl.
    rewrite app_nil_r.
    by destruct (update_pairs _ self) as [? [[]|?]]. }
  split; [done|]. split; [|split; [|split]].
  - unfold update_from_mapping. rewrite update_all_concat. simpl.
    rewrite app_nil_r.
    pose proof (update_pairs_strings
                  (source_items m ++ kwargs_items kwargs) self) as H.
    rewrite fmap_app, Forall_app in H.
    specialize (H (conj Hm (kwargs_items_strings kwargs))).
    by destruct (update_pairs _ self) as [? [[]|?]].
  - rewrite Hstore, update_pairs_writes, apply_writes_lookup.
    rewrite writes_app by done. rewrite final_write_app.
    by rewrite (final_write_kwargs kwargs k v).
  - vm_compute. reflexivity.
  - intros mapping' kwargs' self' b. unfold update_from_mapping.
    destruct mapping' as [|? [|? ?]]; try done;
      destruct (update_all _ self') as [? [[]|?]]; simpl; congruence.
Qed.

(** C8. Loading is idempotent: [update_from_mapping] with the same
    arguments a second time leaves the store the first call left and ends
    the same way, and so does every load operation repeated against the
    same file system. *)
Theorem load_idempotent
    (mapping : list source) (kwargs : list (pystr * value)) (self : store)
    (fs : filesystem) (c : call) :
  update_from_mapping mapping kwargs
      (update_from_mapping mapping kwargs self).1 =
    update_from_mapping mapping kwargs self /\
  run_call fs c (run_call fs c self) = run_call fs c self.
Proof.
  split.
  - rewrite (surjective_pairing (update_from_mapping mapping kwargs self)) at 2.
    rewrite (surjective_pairing (update_from_mapping mapping kwargs _)).
    f_equal.
    + rewrite !update_from_mapping_writes. apply apply_writes_idemp.
    + apply update_from_mapping_outcome.
  - rewrite !run_call_writes. apply apply_writes_idemp.
Qed.

(** C10. [update_from_mapping] is not atomic: when an uppercase string key
    is followed by a key that is not a string, the call raises
    [AttributeError] at the second one, and the store keeps the writes
    made up to there, the first key's among them. *)
Theorem update_from_mapping_not_atomic
    (m : source) (before rest : list (key * value))
    (k : pystr) (v v' : value) (z : Z)
    (kwargs : list (pystr * value)) (self : store) :
  source_items m = before ++ (KStr k, v) :: (KInt z, v') :: rest ->
  Forall string_key before.*1 ->
  isupper k = true ->
  (update_from_mapping [m] kwargs self).2 =
    Raise (AttributeError "'int' object has no attribute 'isupper'") /\
  (update_from_mapping [m] kwargs self).1 =
    <[KStr k := v]> (update_pairs before self).1 /\
  (update_from_mapping [m] kwargs self).1 !! KStr k = Some v /\
  (self !! KStr k = None -> (update_from_mapping [m] kwargs self).1 <> self).
Proof.
  intros Hm Hbefore Hup.
  assert (H : update_from_mapping [m] kwargs self =
            (<[KStr k := v]> (update_pairs before self).1,
             Raise (AttributeError "'int' object has no attribute 'isupper'"))).
  { unfold update_from_mapping. rewrite update_all_concat. simpl.
    rewrite Hm, app_nil_r, <- !app_assoc, update_pairs_app.
    pose proof (update_pairs_strings before self Hbefore) as Hok.
    destruct (update_pairs before self) as [self' [[]|?]]; [|done].
    simpl. by rewrite Hup. }
  rewrite H. simpl. split; [done|]. split; [done|].
  split; [apply lookup_insert_eq|].
  intros Hnone Heq. rewrite <- Heq, lookup_insert_eq in Hnone. done.
Qed.

Lemma errno_in_benign e :
  errno_in e [ENOENT; EISDIR] = true <->
  errno e = Some ENOENT \/ errno e = Some EISDIR.
Proof.
  unfold errno_in. destruct (errno e) as [n|].
  - rewrite bool_decide_eq_true, !elem_of_cons, elem_of_nil.
    split; [intros [->|[->|[]]]; auto | intros [[= ->]|[= ->]]; auto].
  - split; [done | by intros [|]].
Qed.

(** C3. When [open] fails in [from_file]: with errno [ENOENT] or [EISDIR]
    and [silent] true the call returns [False] and the store is as it
    was; with [silent] false the same error is raised again, its
    [strerror] prefixed with "Unable to load configuration file: " and its
    [errno] and [filename] kept; with any other errno it is raised again
    in that form whatever [silent] is. The store is unchanged each time. *)
Theorem from_file_open_error
    (fs : filesystem) (filepath : string) (loader : string -> result source)
    (self : store) (e : oserror) :
  fs filepath = inl e ->
  let annotated e' :=
    errno e' = errno e /\ filename e' = filename e /\
    strerror e' =
      Some ("Unable to load configuration file: "
              +:+ format_strerror (strerror e)) in
  (errno e = Some ENOENT \/ errno e = Some EISDIR ->
   from_file fs filepath loader true self = (self, Ok false) /\
   exists e', from_file fs filepath loader false self
                = (self, Raise (IOError e')) /\ annotated e') /\
  (errno e <> Some ENOENT -> errno e <> Some EISDIR ->
   forall silent,
   exists e', from_file fs filepath loader silent self
                = (self, Raise (IOError e')) /\ annotated e').
Proof.
  intros Hopen annotated. unfold from_file, open_and_load. rewrite Hopen.
  split.
  - intros Hbenign%errno_in_benign. rewrite Hbenign. simpl. split; [done|].
    by exists (annotate e).
  - intros Hne1 Hne2 silent.
    destruct (errno_in e [ENOENT; EISDIR]) eqn:Hin.
    + apply errno_in_benign in Hin as [|]; done.
    + rewrite andb_false_r. by exists (annotate e).
Qed.

(** C6, amended. An exception of the loader that is not an [IOError]
    leaves [from_file] as it was raised, whatever [silent] is, and the
    store is unchanged. An [IOError] of the loader goes through the same
    handler as a failure of [open]: with [silent] true and errno [ENOENT]
    or [EISDIR] the call returns [False], otherwise the error is raised
    again with its [strerror] prefixed. *)
Theorem loader_error_propagates
    (fs : filesystem) (filepath content : string)
    (loader : string -> result source) (silent : bool) (self : store)
    (e : exn) :
  fs filepath = inr content ->
  loader content = Raise e ->
  (is_ioerror e = false ->
   from_file fs filepath loader silent self = (self, Raise e)) /\
  (forall err, e = IOError err ->
   from_file fs filepath loader silent self =
     if silent && errno_in err [ENOENT; EISDIR] then (self, Ok false)
     else (self, Raise (IOError (annotate err)))).
Proof.
  intros Hopen Hload. unfold from_file, open_and_load. rewrite Hopen, Hload.
  split; [by destruct e | by intros err ->].
Qed.

(** C2, amended. [from_yaml] takes a path only. It is [from_file] with
    [yaml.safe_load] as the loader and [silent] false: the same store
    afterwards and the same exceptions; where [from_file] returns [True]
    it returns [None], and it never returns [False]. *)
Theorem from_yaml_from_file
    (fs : filesystem) (filepath : string) (self : store) :
  (from_yaml fs filepath self).1 =
    (from_file fs filepath yaml_safe_load false self).1 /\
  (forall e, (from_yaml fs filepath self).2 = Raise e <->
             (from_file fs filepath yaml_safe_load false self).2 = Raise e) /\
  (returned_none (from_yaml fs filepath self).2 = Ok VNone <->
   returned_bool (from_file fs filepath yaml_safe_load false self).2
     = Ok (VBool true)) /\
  returned_bool (from_file fs filepath yaml_safe_load false self).2
    <> Ok (VBool false).
Proof.
  assert (Hret : forall b,
            (from_file fs filepath yaml_safe_load false self).2 = Ok b ->
            b = true).
  { intros b. unfold from_file.
    destruct (open_and_load fs filepath yaml_safe_load) as [confobj|[| |e|]];
      try done.
    unfold update_from_mapping.
    destruct (update_all _ self) as [? [[]|?]]; simpl; congruence. }
  unfold from_yaml.
  destruct (from_file fs filepath yaml_safe_load false self) as [self' [b|e]];
    simpl in *.
  - rewrite (Hret b eq_refl). repeat split; done.
  - repeat split; try done; intros; congruence.
Qed.

(** What [from_object] writes, name by name. *)
Lemma object_writes_elem names obj k v :
  (k, v) ∈ object_writes names obj ->
  exists n, k = KStr n /\ n ∈ names /\ isupper n = true /\ getattr obj n = Ok v.
Proof.
  induction names as [|n rest IH]; simpl; [by intros H%elem_of_nil|].
  destruct (isupper n) eqn:Hn.
  - destruct (getattr obj n) as [x|e] eqn:Hg; [|by intros H%elem_of_nil].
    intros [[= -> ->]|H]%elem_of_cons.
    + exists n. repeat split; [left | done..].
    + destruct (IH H) as (n' & ? & ? & ? & ?). exists n'.
      repeat split; [done | by right | done..].
  - intros H. destruct (IH H) as (n' & ? & ? & ? & ?). exists n'.
    repeat split; [done | by right | done..].
Qed.

Lemma object_writes_readable names obj n v :
  (forall n, n ∈ names -> isupper n = true -> exists v, getattr obj n = Ok v) ->
  n ∈ names -> isupper n = true -> getattr obj n = Ok v ->
  (KStr n, v) ∈ object_writes names obj.
Proof.
  induction names as [|n' rest IH]; simpl; [by intros _ H%elem_of_nil|].
  intros Hread Hin Hup Hget.
  assert (Hrest : forall n, n ∈ rest -> isupper n = true ->
                    exists v, getattr obj n = Ok v).
  { intros n0 H0. apply Hread. by right. }
  destruct (isupper n') eqn:Hn'.
  - destruct (Hread n' ltac:(left) Hn') as [x Hx]. rewrite Hx.
    apply elem_of_cons in Hin as [->|Hin].
    + rewrite Hx in Hget. injection Hget as ->. left.
    + right. by apply IH.
  - apply elem_of_cons in Hin as [->|Hin]; [congruence|]. by apply IH.
Qed.

Lemma from_object_readable names obj self :
  (forall n, n ∈ names -> isupper n = true -> exists v, getattr obj n = Ok v) ->
  (from_object_names names obj self).2 = Ok tt.
Proof.
  revert self. induction names as [|n rest IH]; intros self Hread; simpl; [done|].
  assert (Hrest : forall n, n ∈ rest -> isupper n = true ->
                    exists v, getattr obj n = Ok v).
  { intros n0 H0. apply Hread. by right. }
  destruct (isupper n) eqn:Hn; [|by apply IH].
  destruct (Hread n ltac:(left) Hn) as [x ->]. by apply IH.
Qed.

Lemma from_object_lookup_written obj self n v :
  (forall n, n ∈ dir obj -> isupper n = true -> exists v, getattr obj n = Ok v) ->
  n ∈ dir obj -> isupper n = true -> getattr obj n = Ok v ->
  (from_object obj self).1 !! KStr n = Some v.
Proof.
  intros Hread Hin Hup Hget. unfold from_object.
  rewrite from_object_writes, apply_writes_lookup.
  destruct (final_write _ (KStr n)) as [x|] eqn:Hw.
  - apply final_write_elem, object_writes_elem in Hw
      as (n' & [= <-] & _ & _ & Hx). congruence.
  - apply final_write_None in Hw. exfalso. apply Hw.
    apply list_elem_of_fmap. exists (KStr n, v).
    split; [done|]. by apply object_writes_readable.
Qed.

Lemma from_object_lookup_other obj self k :
  (forall n, k = KStr n -> n ∈ dir obj -> isupper n = false) ->
  (from_object obj self).1 !! k = self !! k.
Proof.
  intros Hk. unfold from_object.
  rewrite from_object_writes, apply_writes_lookup.
  destruct (final_write _ k) as [x|] eqn:Hw; [|done].
  apply final_write_elem, object_writes_elem in Hw
    as (n & -> & Hin & Hup & _).
  rewrite (Hk n eq_refl Hin) in Hup. done.
Qed.

(** On ASCII keys [isupper] is the predicate of the specification. *)
Lemma ascii_case_upper c :
  match ascii_case c with
  | Some Lower => ascii_upper c <> c
  | Some Title => False
  | _ => ascii_upper c = c
  end.
Proof.
  unfold ascii_case, ascii_upper.
  destruct (N.leb_spec 65 c), (N.leb_spec c 90), (N.leb_spec 97 c),
    (N.leb_spec c 122); simpl; lia.
Qed.

Lemma isupper_from_ascii found s :
  isascii s = true ->
  isupper_from found s =
    bool_decide (s = upper s) && (found || existsb char_isalpha s).
Proof.
  revert found. induction s as [|c r IH]; intros found.
  - intros _. simpl. by rewrite orb_false_r.
  - intros [Hc Hr]%andb_true_iff.
    assert (Hcase : char_case c = ascii_case c)
      by (unfold char_case; by rewrite Hc).
    assert (Halpha : char_isalpha c = bool_decide (is_Some (ascii_case c)))
      by (unfold char_isalpha; by rewrite Hc).
    assert (Hupper : char_upper c = [ascii_upper c])
      by (unfold char_upper; by rewrite Hc).
    cbn [isupper_from existsb]. rewrite Hcase, Halpha.
    change (upper (c :: r)) with (char_upper c ++ upper r). rewrite Hupper.
    pose proof (ascii_case_upper c) as Hfix.
    destruct (ascii_case c) as [[]|]; [| |done|].
    + rewrite Hfix, (IH true Hr).
      rewrite (bool_decide_true (is_Some _)) by (by eexists).
      rewrite !orb_true_r, !andb_true_r.
      apply bool_decide_ext. simpl.
      split; [intros H; by f_equal | by intros [= ?]].
    + rewrite bool_decide_false; [done|]. intros [= ? _]. by apply Hfix.
    + rewrite Hfix, (IH found Hr).
      rewrite (bool_decide_false (is_Some None)) by (by intros [? ?]).
      rewrite orb_false_l.
      f_equal. apply bool_decide_ext. simpl.
      split; [intros H; by f_equal | by intros [= ?]].
Qed.

Lemma isupper_ascii s :
  isascii s = true -> isupper s = uppercase_predicate s.
Proof. intros Hs. unfold isupper. by rewrite (isupper_from_ascii false s Hs). Qed.

(** C9, amended. [from_object] goes through the names [dir] lists; when
    the ones of which [isupper()] is true can be read it returns, each of
    them is bound to the value of its attribute, and every other key is as
    it was. For a name of ASCII characters [isupper()] is the uppercase
    predicate of the specification. On an object with [UPPER = 5] and
    [lower = 6] an empty store ends with [UPPER -> 5] and nothing else. *)
Theorem from_object_uppercase_only (obj : pyobject) (self : store) :
  (forall n, n ∈ dir obj -> isupper n = true -> exists v, getattr obj n = Ok v) ->
  (from_object obj self).2 = Ok tt /\
  (forall n v, n ∈ dir obj -> isupper n = true -> getattr obj n = Ok v ->
     (from_object obj self).1 !! KStr n = Some v) /\
  (forall k, (forall n, k = KStr n -> n ∈ dir obj -> isupper n = false) ->
     (from_object obj self).1 !! k = self !! k) /\
  from_object upper_lower_object ∅ = ({[KStr (u "UPPER") := VInt 5]}, Ok tt) /\
  (forall n, isascii n = true -> isupper n = uppercase_predicate n).
Proof.
  intros Hread. split; [by apply from_object_readable|].
  split; [intros n v; by apply from_object_lookup_written|].
  split; [apply from_object_lookup_other|].
  split; [vm_compute; reflexivity | apply isupper_ascii].
Qed.

(** C4, amended. Loading the single pair [K: V], as the positional
    mapping, as a sequence of pairs or as a keyword of
    [update_from_mapping], as the only uppercase attribute of an object
    through [from_object], or as what the loader makes of a file through
    [from_file] and [from_yaml], binds [K] to [V] and changes nothing else
    when [K.isupper()] holds (no lowercase or titlecase character and at
    least one uppercase one), and leaves the store as it was when it does
    not. For a key of ASCII characters [K.isupper()] is the same as [K]
    being equal to its uppercase transform and containing an alphabetic
    character. *)
Theorem load_single_pair
    (K : pystr) (V : value) (self : store)
    (obj : pyobject) (fs : filesystem) (filepath content : string)
    (loader : string -> result source) (silent : bool) :
  K ∈ dir obj -> getattr obj K = Ok V ->
  (forall n, n ∈ dir obj -> n <> K -> isupper n = false) ->
  fs filepath = inr content ->
  loader content = Ok (Mapping [(KStr K, V)]) ->
  yaml_safe_load content = Ok (Mapping [(KStr K, V)]) ->
  let after := if isupper K then <[KStr K := V]> self else self in
  (update_from_mapping [Mapping [(KStr K, V)]] [] self).1 = after /\
  (update_from_mapping [Pairs [(KStr K, V)]] [] self).1 = after /\
  (update_from_mapping [] [(K, V)] self).1 = after /\
  (from_object obj self).1 = after /\
  (from_file fs filepath loader silent self).1 = after /\
  (from_yaml fs filepath self).1 = after /\
  (isupper K = true -> after !! KStr K = Some V) /\
  (isupper K = false -> after = self) /\
  (isascii K = true -> isupper K = uppercase_predicate K).
Proof.
  intros Hin Hget Hothers Hopen Hload Hyaml after.
  assert (Hmap : (update_from_mapping [Mapping [(KStr K, V)]] [] self).1
                   = after).
  { unfold update_from_mapping, after. simpl. by destruct (isupper K). }
  assert (Hobj : (from_object obj self).1 = after).
  { apply map_eq. intros k. subst after.
    destruct (decide (k = KStr K)) as [->|Hk], (isupper K) eqn:HK.
    - rewrite (from_object_lookup_written obj self K V), lookup_insert_eq;
        try done.
      intros n Hn Hup. destruct (decide (n = K)) as [->|Hne]; [eauto|].
      rewrite (Hothers n Hn Hne) in Hup. done.
    - rewrite from_object_lookup_other; [done|]. by intros n [= <-] _.
    - rewrite from_object_lookup_other, lookup_insert_ne; [done..|].
      intros n -> Hn. apply Hothers; [done|]. congruence.
    - rewrite from_object_lookup_other; [done|].
      intros n -> Hn. apply Hothers; [done|]. congruence. }
  split; [done|].
  split. { unfold update_from_mapping, after. simpl. by destruct (isupper K). }
  split. { unfold update_from_mapping, after. simpl. by destruct (isupper K). }
  split; [done|].
  split. { unfold from_file, open_and_load. by rewrite Hopen, Hload. }
  split.
  { unfold from_yaml, from_file, open_and_load. rewrite Hopen, Hyaml.
    rewrite <- Hmap.
    by destruct (update_from_mapping [Mapping [(KStr K, V)]] [] self)
      as [? [|]]. }
  subst after. split; [intros ->; apply lookup_insert_eq|].
  split; [by intros ->|]. apply isupper_ascii.
Qed.

(** ** Further properties of the methods *)

Lemma final_write_NoDup w k v :
  NoDup w.*1 -> (k, v) ∈ w -> final_write w k = Some v.
Proof.
  induction w as [|[k' v'] w IH]; simpl.
  - by intros _ H%elem_of_nil.
  - rewrite NoDup_cons. intros [Hk' Hnd] [[= -> ->]|Hin]%elem_of_cons.
    + apply final_write_None in Hk'. rewrite Hk'. by rewrite decide_True.
    + by rewrite (IH Hnd Hin).
Qed.

Lemma final_write_key w k v : final_write w k = Some v -> k ∈ w.*1.
Proof.
  intros H%final_write_elem. apply list_elem_of_fmap. by exists (k, v).
Qed.

Lemma writes_keys mapping k : k ∈ (writes mapping).*1 -> k ∈ mapping.*1.
Proof.
  intros [[k' v] [-> H]]%list_elem_of_fmap. apply list_elem_of_fmap.
  exists (k', v). split; [done|]. by apply writes_elem.
Qed.

Lemma mapping_writes_keys mapping kwargs k :
  k ∈ (mapping_writes mapping kwargs).*1 ->
  k ∈ (concat (map source_items mapping) ++ kwargs_items kwargs).*1.
Proof.
  unfold mapping_writes.
  destruct mapping as [|m [|m' rest]];
    [| |by intros H%elem_of_nil]; intros H%writes_keys;
    simpl in *; rewrite ?app_nil_r in *; exact H.
Qed.

Lemma single_mapping_writes m :
  mapping_writes [m] [] = writes (source_items m).
Proof. unfold mapping_writes. simpl. by rewrite !app_nil_r. Qed.

Lemma final_write_pairs l k v :
  Forall string_key l.*1 -> NoDup l.*1 -> (KStr k, v) ∈ l ->
  isupper k = true ->
  final_write (writes l) (KStr k) = Some v.
Proof.
  induction l as [|[k' v'] rest IH]; simpl.
  - by intros _ _ H%elem_of_nil.
  - rewrite Forall_cons, NoDup_cons.
    intros [Hs Hrest] [Hk' Hnd] [[= <- <-]|Hin]%elem_of_cons Hup.
    + simpl. rewrite Hup. simpl.
      assert (final_write (writes rest) (KStr k) = None) as ->.
      { apply final_write_None. intros H%writes_keys. by apply Hk'. }
      by rewrite decide_True.
    + specialize (IH Hrest Hnd Hin Hup).
      destruct k' as [s| | |]; try done. simpl.
      destruct (isupper s); simpl; by rewrite IH.
Qed.

(** A call that stops at a key that is not a string. *)
Lemma update_from_mapping_stops m before rest k v v' z kwargs self :
  source_items m = before ++ (KStr k, v) :: (KInt z, v') :: rest ->
  Forall string_key before.*1 ->
  isupper k = true ->
  update_from_mapping [m] kwargs self =
    (<[KStr k := v]> (update_pairs before self).1,
     Raise (AttributeError "'int' object has no attribute 'isupper'")).
Proof.
  intros Hm Hbefore Hup.
  unfold update_from_mapping. rewrite update_all_concat. simpl.
  rewrite Hm, app_nil_r, <- !app_assoc, update_pairs_app.
  pose proof (update_pairs_strings before self Hbefore) as Hok.
  destruct (update_pairs before self) as [self' [[]|?]]; [|done].
  simpl. by rewrite Hup.
Qed.

(** [Config(defaults)] holds the pairs of [defaults] and nothing else,
    whatever their keys are; of two pairs with the same key the later one
    stays. *)
Theorem Config_lookup (defaults : source) (k : key) (v : value) :
  NoDup (source_items defaults).*1 ->
  (Config defaults !! k = Some v <-> (k, v) ∈ source_items defaults) /\
  (Config defaults !! k = None <-> k ∉ (source_items defaults).*1) /\
  (forall l v', Config (Pairs (l ++ [(k, v'); (k, v)])) !! k = Some v).
Proof.
  intros Hnd. unfold Config. rewrite !dict_init_lookup.
  split; [|split].
  - split; [apply final_write_elem | by apply final_write_NoDup].
  - apply final_write_None.
  - intros l v'. rewrite dict_init_lookup. simpl. rewrite final_write_app.
    simpl. by rewrite decide_True.
Qed.

(** Pairs whose keys are strings that fail [isupper] are skipped: the
    call returns [True] and the store is as it was. *)
Theorem non_uppercase_keys_ignored
    (m : source) (kwargs : list (pystr * value)) (self : store) :
  Forall (fun kv => exists s, kv.1 = KStr s /\ isupper s = false)
    (source_items m ++ kwargs_items kwargs) ->
  update_from_mapping [m] kwargs self = (self, Ok true).
Proof.
  intros Hall. unfold update_from_mapping. rewrite update_all_concat. simpl.
  rewrite app_nil_r.
  assert (H : update_pairs (source_items m ++ kwargs_items kwargs) self
              = (self, Ok tt)).
  { induction Hall as [|[k v] l (s & Hk & Hs) _ IH]; simpl; [done|].
    simpl in Hk. subst k. simpl. by rewrite Hs. }
  by rewrite H.
Qed.


(** [update_from_mapping] leaves alone every key that is not a key of its
    sources. *)
Theorem update_from_mapping_frame
    (mapping : list source) (kwargs : list (pystr * value)) (self : store)
    (k : key) :
  k ∉ (concat (map source_items mapping)).*1 ->
  k ∉ (kwargs_items kwargs).*1 ->
  (update_from_mapping mapping kwargs self).1 !! k = self !! k.
Proof.
  intros Hpos Hkw. rewrite update_from_mapping_writes, apply_writes_lookup.
  destruct (final_write _ k) as [v|] eqn:Hw; [|done].
  apply final_write_key, mapping_writes_keys in Hw.
  rewrite fmap_app, elem_of_app in Hw. by destruct Hw.
Qed.

(** When the keys of the positional source are strings, one call with the
    source and the keywords is the call with the source followed by the
    call with the keywords. *)
Theorem update_from_mapping_split
    (m : source) (kwargs : list (pystr * value)) (self : store) :
  Forall string_key (source_items m).*1 ->
  update_from_mapping [m] kwargs self =
    update_from_mapping [] kwargs (update_from_mapping [m] [] self).1.
Proof.
  intros Hm. unfold update_from_mapping. rewrite !update_all_concat. simpl.
  rewrite !app_nil_r, update_pairs_app.
  pose proof (update_pairs_strings (source_items m) self Hm) as Hok.
  by destruct (update_pairs (source_items m) self) as [self' [[]|?]].
Qed.

(** Loads of sources that share no key commute. *)
Theorem disjoint_loads_commute (m1 m2 : source) (self : store) :
  (forall k, k ∈ (source_items m1).*1 -> k ∉ (source_items m2).*1) ->
  (update_from_mapping [m2] [] (update_from_mapping [m1] [] self).1).1 =
  (update_from_mapping [m1] [] (update_from_mapping [m2] [] self).1).1.
Proof.
  intros Hdisj. apply map_eq. intros k.
  rewrite !update_from_mapping_writes, !apply_writes_lookup,
    !single_mapping_writes.
  destruct (final_write (writes (source_items m1)) k) as [v1|] eqn:H1,
           (final_write (writes (source_items m2)) k) as [v2|] eqn:H2;
    try done.
  apply final_write_key, writes_keys in H1.
  apply final_write_key, writes_keys in H2.
  by destruct (Hdisj k H1).
Qed.

(** After a load of a source with string keys, each of them once, every
    uppercase key of the source has the value the source gives it,
    whatever the store held before. *)
Theorem loaded_key_lookup
    (m : source) (self : store) (k : pystr) (v : value) :
  Forall string_key (source_items m).*1 ->
  NoDup (source_items m).*1 ->
  (KStr k, v) ∈ source_items m ->
  isupper k = true ->
  (update_from_mapping [m] [] self).1 !! KStr k = Some v.
Proof.
  intros Hs Hnd Hin Hup.
  rewrite update_from_mapping_writes, apply_writes_lookup,
    single_mapping_writes.
  by rewrite (final_write_pairs _ k v).
Qed.

Lemma update_from_mapping_returns mapping kwargs self b :
  (update_from_mapping mapping kwargs self).2 = Ok b -> b = true.
Proof.
  unfold update_from_mapping.
  destruct mapping as [|? [|? ?]]; try done;
    destruct (update_all _ self) as [? [[]|?]]; simpl; congruence.
Qed.

(** [from_file] returns [False] exactly when [silent] is true and the
    [try] block raised an [IOError] with errno [ENOENT] or [EISDIR]; the
    store is then as it was. *)
Theorem from_file_false_iff
    (fs : filesystem) (filepath : string) (loader : string -> result source)
    (silent : bool) (self : store) :
  ((from_file fs filepath loader silent self).2 = Ok false <->
   silent = true /\
   exists e, open_and_load fs filepath loader = Raise (IOError e) /\
             (errno e = Some ENOENT \/ errno e = Some EISDIR)) /\
  ((from_file fs filepath loader silent self).2 = Ok false ->
   (from_file fs filepath loader silent self).1 = self).
Proof.
  unfold from_file.
  destruct (open_and_load fs filepath loader) as [confobj|e].
  - split; [split|].
    + by intros H%update_from_mapping_returns.
    + by intros [_ (e & [=] & _)].
    + by intros H%update_from_mapping_returns.
  - destruct e as [| |e|];
      try (split; [split; [done | by intros [_ (e' & [=] & _)]] | done]).
    destruct silent, (errno_in e [ENOENT; EISDIR]) eqn:He; simpl.
    + apply errno_in_benign in He. split; [|done].
      split; [intros _; split; [done|]; by exists e | done].
    + split; [|done]. split; [done|]. intros [_ (e' & [= <-] & He')].
      apply errno_in_benign in He'. congruence.
    + split; [|done]. split; [done | by intros [[=] _]].
    + split; [|done]. split; [done | by intros [[=] _]].
Qed.

(** [silent] changes the result of [from_file] only for an [IOError] with
    errno [ENOENT] or [EISDIR] raised in the [try] block. *)
Theorem silent_only_for_missing
    (fs : filesystem) (filepath : string) (loader : string -> result source)
    (self : store) :
  from_file fs filepath loader true self =
    from_file fs filepath loader false self \/
  exists e,
    (errno e = Some ENOENT \/ errno e = Some EISDIR) /\
    open_and_load fs filepath loader = Raise (IOError e) /\
    from_file fs filepath loader true self = (self, Ok false) /\
    from_file fs filepath loader false self
      = (self, Raise (IOError (annotate e))).
Proof.
  unfold from_file.
  destruct (open_and_load fs filepath loader) as [confobj|[| |e|]]; auto.
  destruct (errno_in e [ENOENT; EISDIR]) eqn:He; simpl; auto.
  right. exists e. by apply errno_in_benign in He.
Qed.

(** [silent] does not cover the merge: when the loaded mapping has an
    uppercase string key followed by a key that is not a string,
    [from_file] raises [AttributeError] whatever [silent] is, and the
    first key stays written. *)
Theorem from_file_not_atomic
    (fs : filesystem) (filepath content : string)
    (loader : string -> result source) (silent : bool) (self : store)
    (m : source) (before rest : list (key * value))
    (k : pystr) (v v' : value) (z : Z) :
  fs filepath = inr content ->
  loader content = Ok m ->
  source_items m = before ++ (KStr k, v) :: (KInt z, v') :: rest ->
  Forall string_key before.*1 ->
  isupper k = true ->
  (from_file fs filepath loader silent self).2 =
    Raise (AttributeError "'int' object has no attribute 'isupper'") /\
  (from_file fs filepath loader silent self).1 !! KStr k = Some v.
Proof.
  intros Hopen Hload Hm Hbefore Hup.
  unfold from_file, open_and_load. rewrite Hopen, Hload.
  rewrite (update_from_mapping_stops m before rest k v v' z [] self Hm Hbefore Hup).
  simpl. split; [done | apply lookup_insert_eq].
Qed.

Lemma from_object_names_app l1 l2 obj self :
  from_object_names (l1 ++ l2) obj self =
    match from_object_names l1 obj self with
    | (self', Ok _) => from_object_names l2 obj self'
    | (self', Raise e) => (self', Raise e)
    end.
Proof.
  revert self. induction l1 as [|n l1 IH]; intros self; simpl; [done|].
  destruct (isupper n); [|apply IH].
  destruct (getattr obj n); [apply IH | done].
Qed.

(** When reading an uppercase attribute raises, [from_object] raises the
    same exception; the attributes before it in [dir] are loaded, the ones
    after it are not looked at. *)
Theorem from_object_getattr_error
    (obj : pyobject) (before rest : list pystr) (n : pystr) (e : exn)
    (self : store) :
  dir obj = before ++ n :: rest ->
  (forall n', n' ∈ before -> isupper n' = true ->
     exists v, getattr obj n' = Ok v) ->
  isupper n = true ->
  getattr obj n = Raise e ->
  (from_object obj self).2 = Raise e /\
  (from_object obj self).1 = (from_object_names before obj self).1 /\
  (forall k, k ∉ KStr <$> before -> (from_object obj self).1 !! k = self !! k).
Proof.
  intros Hdir Hread Hup Hget.
  assert (H : from_object obj self
              = ((from_object_names before obj self).1, Raise e)).
  { unfold from_object. rewrite Hdir, from_object_names_app.
    pose proof (from_object_readable before obj self Hread) as Hok.
    destruct (from_object_names before obj self) as [self' [[]|?]]; [|done].
    simpl. by rewrite Hup, Hget. }
  rewrite H. simpl. split; [done|]. split; [done|].
  intros k Hk. rewrite from_object_writes, apply_writes_lookup.
  destruct (final_write _ k) as [x|] eqn:Hw; [|done].
  apply final_write_elem, object_writes_elem in Hw as (n' & -> & Hin & _).
  destruct Hk. apply list_elem_of_fmap. by exists n'.
Qed.

Lemma names_items_cons n rest obj :
  names_items (n :: rest) obj =
    match getattr obj n with
    | Ok v => (KStr n, v) :: names_items rest obj
    | Raise _ => names_items rest obj
    end.
Proof. unfold names_items. simpl. by destruct (getattr obj n). Qed.

Lemma names_items_writes names obj :
  (forall n, n ∈ names -> isupper n = true -> exists v, getattr obj n = Ok v) ->
  writes (names_items names obj) = object_writes names obj.
Proof.
  induction names as [|n rest IH]; intros Hread; [done|].
  assert (Hrest : forall n, n ∈ rest -> isupper n = true ->
                    exists v, getattr obj n = Ok v).
  { intros n0 H0. apply Hread. by right. }
  rewrite names_items_cons. cbn [object_writes].
  destruct (isupper n) eqn:Hn.
  - destruct (Hread n ltac:(left) Hn) as [x ->].
    cbn [writes key_isupper]. rewrite Hn. by rewrite IH.
  - destruct (getattr obj n); cbn [writes key_isupper]; rewrite ?Hn;
      by apply IH.
Qed.

Lemma names_items_strings names obj :
  Forall string_key (names_items names obj).*1.
Proof.
  induction names as [|n rest IH]; [constructor|].
  rewrite names_items_cons.
  destruct (getattr obj n); [by constructor | done].
Qed.

(** When the uppercase attributes can be read, [from_object(obj)] does to
    the store what [update_from_mapping] does with the readable
    attributes of [obj] as pairs, and both return. *)
Theorem from_object_as_mapping (obj : pyobject) (self : store) :
  (forall n, n ∈ dir obj -> isupper n = true -> exists v, getattr obj n = Ok v) ->
  (from_object obj self).1 =
    (update_from_mapping [Pairs (object_items obj)] [] self).1 /\
  (from_object obj self).2 = Ok tt /\
  (update_from_mapping [Pairs (object_items obj)] [] self).2 = Ok true.
Proof.
  intros Hread. split; [|split].
  - unfold from_object.
    rewrite from_object_writes, update_from_mapping_writes,
      single_mapping_writes.
    simpl. unfold object_items. by rewrite names_items_writes.
  - by apply from_object_readable.
  - unfold update_from_mapping. rewrite update_all_concat. simpl.
    rewrite !app_nil_r.
    pose proof (update_pairs_strings (object_items obj) self
                  (names_items_strings _ _)) as Hok.
    by destruct (update_pairs (object_items obj) self) as [? [[]|?]].
Qed.

(** On a key of ASCII characters [isupper] holds exactly when no
    character is one of a..z and some character is one of A..Z; digits,
    underscores and other signs do not matter. *)
Theorem isupper_ascii_letters (s : pystr) :
  isascii s = true ->
  isupper s =
    forallb (fun c => negb (ascii_lowercase c)) s && existsb ascii_uppercase s.
Proof.
  unfold isupper.
  assert (H : forall found, isascii s = true ->
            isupper_from found s =
              forallb (fun c => negb (ascii_lowercase c)) s
                && (found || existsb ascii_uppercase s)).
  { induction s as [|c r IH]; intros found; simpl.
    - intros _. by rewrite orb_false_r.
    - intros [Hc Hr]%andb_true_iff. unfold char_case. rewrite Hc.
      unfold ascii_case, ascii_lowercase, ascii_uppercase.
      destruct (N.leb_spec 65 c), (N.leb_spec c 90), (N.leb_spec 97 c),
        (N.leb_spec c 122); simpl; try lia;
        rewrite ?(IH _ Hr); by rewrite ?orb_true_r. }
  intros Hs. by rewrite (H false Hs).
Qed.

End Config.

(** ** The claims on the sample data *)

Lemma isupper_keys_preserved_witness :
  Forall (fun kv => isupper_key sample_ucd kv.1)
    (source_items (Mapping [(KStr (u "DEBUG"), VBool true)])) /\
  isupper_keys sample_ucd
    (run_calls sample_ucd sample_yaml
       [(sample_fs, FromYaml "config.yaml");
        (sample_fs, FromObject upper_lower_object);
        (sample_fs, UpdateFromMapping [Pairs [(KInt 3, VNone)]] [])]
       (Config (Mapping [(KStr (u "DEBUG"), VBool true)]))).
Proof.
  assert (H : Forall (fun kv => isupper_key sample_ucd kv.1)
                (source_items (Mapping [(KStr (u "DEBUG"), VBool true)]))).
  { constructor; [vm_compute; reflexivity | constructor]. }
  split; [exact H|].
  exact (proj1 (isupper_keys_preserved sample_ucd sample_yaml _ _ H)).
Defined.

(** C1 as stated fails: a lowercase key of the defaults is in the store. *)
Lemma lowercase_default_kept :
  Config (Mapping [(KStr (u "lower"), VInt 1)]) !! KStr (u "lower")
    = Some (VInt 1) /\
  isupper sample_ucd (u "lower") = false /\
  uppercase_predicate sample_ucd (u "lower") = false /\
  ~ predicate_keys sample_ucd
      (run_calls sample_ucd sample_yaml []
         (Config (Mapping [(KStr (u "lower"), VInt 1)]))).
Proof.
  split; [vm_compute; reflexivity|]. split; [vm_compute; reflexivity|].
  split; [vm_compute; reflexivity|].
  intros H. specialize (H (KStr (u "lower"))). simpl in H.
  assert (Hup : uppercase_predicate sample_ucd (u "lower") = true).
  { apply H. exists (VInt 1). vm_compute. reflexivity. }
  vm_compute in Hup. discriminate.
Qed.

(** The keys the loads store are those of which [isupper()] is true,
    which is neither "a string" nor the predicate of the specification:
    on an empty store a [bytes] key of uppercase ASCII letters is stored,
    and so is the key U+2160, which is not alphabetic. *)
Lemma stored_keys_not_predicate :
  (update_from_mapping sample_ucd
     [Mapping [(KBytes (u "ABC"), VInt 1)]] [] ∅).1 !! KBytes (u "ABC")
    = Some (VInt 1) /\
  uppercase_predicate sample_ucd [0x2160%N] = false /\
  (update_from_mapping sample_ucd
     [Mapping [(KStr [0x2160%N], VInt 1)]] [] ∅).1 !! KStr [0x2160%N]
    = Some (VInt 1).
Proof. repeat split; vm_compute; reflexivity. Qed.

(** C2 as stated fails: on a missing file with [silent] true the
    specification's [loadFromYAML] returns [False] where [from_yaml]
    raises, and on a file that loads it returns [True] where [from_yaml]
    returns [None]. *)
Lemma from_yaml_not_load_from_yaml :
  returned_bool
    (loadFromYAML sample_ucd sample_yaml sample_fs "/nonexistent/path.yaml"
       true ∅).2 = Ok (VBool false) /\
  returned_none
    (from_yaml sample_ucd sample_yaml sample_fs "/nonexistent/path.yaml" ∅).2
    = Raise (IOError (OSError (Some ENOENT)
               (Some "Unable to load configuration file: No such file or directory")
               (Some "/nonexistent/path.yaml"))) /\
  returned_bool
    (loadFromYAML sample_ucd sample_yaml sample_fs "config.yaml" false ∅).2
    = Ok (VBool true) /\
  returned_none
    (from_yaml sample_ucd sample_yaml sample_fs "config.yaml" ∅).2
    = Ok VNone /\
  ~ (forall filepath silent,
       returned_none
         (from_yaml sample_ucd sample_yaml sample_fs filepath ∅).2 =
       returned_bool
         (loadFromYAML sample_ucd sample_yaml sample_fs filepath silent ∅).2).
Proof.
  repeat (split; [vm_compute; reflexivity|]).
  intros H. specialize (H "config.yaml" false). vm_compute in H. discriminate.
Qed.

Lemma from_file_open_error_witness :
  sample_fs "/nonexistent/path.yaml" =
    inl (OSError (Some ENOENT) (Some "No such file or directory")
           (Some "/nonexistent/path.yaml")) /\
  from_file sample_ucd sample_fs "/nonexistent/path.yaml" sample_yaml true ∅
    = (∅, Ok false) /\
  from_file sample_ucd sample_fs "/etc" sample_yaml true ∅ = (∅, Ok false) /\
  exists e,
    from_file sample_ucd sample_fs "/root/secret.yaml" sample_yaml true ∅
      = (∅, Raise (IOError e)) /\
    errno e = Some EACCES /\
    strerror e = Some "Unable to load configuration file: Permission denied".
Proof.
  split; [reflexivity|]. split; [|split].
  - exact (proj1 (proj1
      (from_file_open_error sample_ucd sample_fs "/nonexistent/path.yaml"
         sample_yaml ∅ _ eq_refl) (or_introl eq_refl))).
  - exact (proj1 (proj1
      (from_file_open_error sample_ucd sample_fs "/etc"
         sample_yaml ∅ _ eq_refl) (or_intror eq_refl))).
  - destruct (proj2
      (from_file_open_error sample_ucd sample_fs "/root/secret.yaml"
         sample_yaml ∅ _ eq_refl) ltac:(discriminate) ltac:(discriminate) true)
      as (e & Hraise & Herrno & _ & Hmsg).
    exists e. repeat split; assumption.
Defined.

Lemma load_single_pair_witness :
  u "UPPER" ∈ dir upper_lower_object /\
  sample_fs "config.yaml" = inr "UPPER: 5" /\
  sample_yaml "UPPER: 5" = Ok (Mapping [(KStr (u "UPPER"), VInt 5)]) /\
  (from_yaml sample_ucd sample_yaml sample_fs "config.yaml" ∅).1
    = {[KStr (u "UPPER") := VInt 5]}.
Proof.
  assert (Hin : u "UPPER" ∈ dir upper_lower_object) by left.
  split; [exact Hin|]. split; [reflexivity|]. split; [reflexivity|].
  assert (Hothers : forall n, n ∈ dir upper_lower_object -> n <> u "UPPER" ->
                      isupper sample_ucd n = false).
  { intros n Hn Hne. simpl in Hn.
    repeat (apply elem_of_cons in Hn as [->|Hn]);
      [done | reflexivity.. | by apply elem_of_nil in Hn]. }
  exact (proj1 (proj2 (proj2 (proj2 (proj2 (proj2
    (load_single_pair sample_ucd sample_yaml (u "UPPER") (VInt 5) ∅
       upper_lower_object sample_fs "config.yaml" "UPPER: 5" sample_yaml
       false Hin eq_refl Hothers eq_refl eq_refl eq_refl))))))).
Defined.

(** C4 as stated fails: the key U+00AA is equal to its uppercase
    transform and alphabetic, but [isupper] is false on it and the pair is
    not stored; the same for the caseless letter U+4E2D. *)
Lemma ordinal_indicator_not_stored :
  uppercase_predicate sample_ucd [0xAA%N] = true /\
  isupper sample_ucd [0xAA%N] = false /\
  (update_from_mapping sample_ucd
     [Mapping [(KStr [0xAA%N], VInt 1)]] [] ∅).1 !! KStr [0xAA%N] = None /\
  uppercase_predicate sample_ucd [0x4E2D%N] = true /\
  (update_from_mapping sample_ucd
     [Mapping [(KStr [0x4E2D%N], VInt 1)]] [] ∅).1 !! KStr [0x4E2D%N] = None.
Proof. repeat split; vm_compute; reflexivity. Qed.

Lemma update_from_mapping_arity_witness :
  1 < length [Mapping [(KStr (u "A"), VInt 1)];
              Mapping [(KStr (u "B"), VInt 2)]] /\
  update_from_mapping sample_ucd
    [Mapping [(KStr (u "A"), VInt 1)]; Mapping [(KStr (u "B"), VInt 2)]]
    [] {[KStr (u "C") := VInt 3]}
  = ({[KStr (u "C") := VInt 3]},
     Raise (TypeError "Config mapping expected at most 1 argument, got 2")).
Proof.
  split; [simpl; lia|].
  apply (update_from_mapping_arity sample_ucd). simpl. lia.
Defined.

Lemma loader_error_propagates_witness :
  sample_fs "broken.yaml" = inr "UPPER: [" /\
  sample_yaml "UPPER: [" =
    Raise (Exception "yaml.YAMLError" "could not parse the document") /\
  from_file sample_ucd sample_fs "broken.yaml" sample_yaml true ∅ =
    (∅, Raise (Exception "yaml.YAMLError" "could not parse the document")).
Proof.
  split; [reflexivity|]. split; [reflexivity|].
  exact (proj1
    (loader_error_propagates sample_ucd sample_fs "broken.yaml" "UPPER: ["
       sample_yaml true ∅ _ eq_refl eq_refl) eq_refl).
Defined.

(** C6 as stated fails: an [IOError] of the loader with errno [ENOENT] is
    swallowed when [silent] is true, and raised with another [strerror]
    when it is false. *)
Lemma loader_ioerror_silenced :
  sample_fs "config.yaml" = inr "UPPER: 5" /\
  include_loader "UPPER: 5" =
    Raise (IOError (OSError (Some ENOENT) (Some "No such file or directory")
                      (Some "included.yaml"))) /\
  from_file sample_ucd sample_fs "config.yaml" include_loader true ∅
    = (∅, Ok false) /\
  from_file sample_ucd sample_fs "config.yaml" include_loader false ∅
    = (∅, Raise (IOError (OSError (Some ENOENT)
            (Some "Unable to load configuration file: No such file or directory")
            (Some "included.yaml")))).
Proof. repeat split; vm_compute; reflexivity. Qed.

Lemma keyword_overrides_positional_witness :
  Forall string_key (source_items (Mapping [(KStr (u "A"), VInt 1)])).*1 /\
  NoDup [(u "A", VInt 2)].*1 /\
  (u "A", VInt 2) ∈ [(u "A", VInt 2)] /\
  isupper sample_ucd (u "A") = true /\
  (update_from_mapping sample_ucd
     [Mapping [(KStr (u "A"), VInt 1)]] [(u "A", VInt 2)] ∅).1
    !! KStr (u "A") = Some (VInt 2).
Proof.
  assert (H1 : Forall string_key
                 (source_items (Mapping [(KStr (u "A"), VInt 1)])).*1)
    by (repeat constructor).
  assert (H2 : NoDup [(u "A", VInt 2)].*1) by apply NoDup_singleton.
  assert (H3 : (u "A", VInt 2) ∈ [(u "A", VInt 2)]) by left.
  repeat (split; [done|]).
  exact (proj1 (proj2 (proj2
    (keyword_overrides_positional sample_ucd _ _ ∅ _ _ H1 H2 H3 eq_refl)))).
Defined.

(** C9 as stated fails: the attribute name U+4E2D satisfies the uppercase
    predicate of the specification and [from_object] does not load it. *)
Lemma cjk_attribute_not_loaded :
  [0x4E2D%N] ∈ dir cjk_object /\
  getattr cjk_object [0x4E2D%N] = Ok (VInt 7) /\
  uppercase_predicate sample_ucd [0x4E2D%N] = true /\
  from_object sample_ucd cjk_object ∅ = (∅, Ok tt).
Proof.
  split; [right; left|]. repeat split; vm_compute; reflexivity.
Qed.

Lemma from_object_uppercase_only_witness :
  (forall n, n ∈ dir upper_lower_object -> isupper sample_ucd n = true ->
     exists v, getattr upper_lower_object n = Ok v) /\
  (from_object sample_ucd upper_lower_object ∅).1 !! KStr (u "UPPER")
    = Some (VInt 5) /\
  (from_object sample_ucd upper_lower_object ∅).1 !! KStr (u "lower") = None.
Proof.
  assert (Hread : forall n, n ∈ dir upper_lower_object ->
                    isupper sample_ucd n = true ->
                    exists v, getattr upper_lower_object n = Ok v).
  { intros n Hn _. simpl in Hn.
    repeat (apply elem_of_cons in Hn as [->|Hn]);
      [eexists; reflexivity.. | by apply elem_of_nil in Hn]. }
  split; [exact Hread|].
  pose proof (from_object_uppercase_only sample_ucd upper_lower_object ∅ Hread)
    as (_ & Hwritten & Hother & _).
  split.
  - apply Hwritten; [left | reflexivity | reflexivity].
  - rewrite Hother; [reflexivity|]. intros n [= <-] _. reflexivity.
Defined.

Lemma update_from_mapping_not_atomic_witness :
  isupper sample_ucd (u "A") = true /\
  update_from_mapping sample_ucd
    [Mapping [(KStr (u "A"), VInt 1); (KInt 3, VInt 2);
              (KStr (u "B"), VInt 3)]] [] ∅
  = ({[KStr (u "A") := VInt 1]},
     Raise (AttributeError "'int' object has no attribute 'isupper'")).
Proof.
  split; [reflexivity|].
  pose proof (update_from_mapping_not_atomic sample_ucd
    (Mapping [(KStr (u "A"), VInt 1); (KInt 3, VInt 2); (KStr (u "B"), VInt 3)])
    [] [(KStr (u "B"), VInt 3)] (u "A") (VInt 1) (VInt 2) 3 [] ∅
    eq_refl (Forall_nil_2 _) eq_refl) as (Hraise & Hstore & _).
  rewrite (surjective_pairing (update_from_mapping _ _ _ _)).
  rewrite Hraise, Hstore. reflexivity.
Defined.

(** ** The further properties on the sample data *)

Lemma Config_lookup_witness :
  NoDup (source_items
           (Mapping [(KStr (u "lower"), VInt 1); (KInt 7, VNone)])).*1 /\
  Config (Mapping [(KStr (u "lower"), VInt 1); (KInt 7, VNone)])
    !! KStr (u "lower") = Some (VInt 1).
Proof.
  assert (Hnd : NoDup (source_items
                  (Mapping [(KStr (u "lower"), VInt 1); (KInt 7, VNone)])).*1).
  { simpl. apply NoDup_cons. split; [|apply NoDup_singleton].
    intros [=]%list_elem_of_singleton. }
  split; [exact Hnd|].
  apply (proj1 (Config_lookup _ (KStr (u "lower")) (VInt 1) Hnd)). left.
Defined.

Lemma non_uppercase_keys_ignored_witness :
  Forall (fun kv => exists s, kv.1 = KStr s /\ isupper sample_ucd s = false)
    (source_items (Mapping [(KStr (u "debug"), VBool true);
                            (KStr (u "Mixed_Case"), VInt 1);
                            (KStr (u "_123"), VInt 2)])
       ++ kwargs_items [(u "port", VInt 80)]) /\
  update_from_mapping sample_ucd
    [Mapping [(KStr (u "debug"), VBool true);
              (KStr (u "Mixed_Case"), VInt 1);
              (KStr (u "_123"), VInt 2)]]
    [(u "port", VInt 80)] {[KStr (u "PORT") := VInt 8080]}
  = ({[KStr (u "PORT") := VInt 8080]}, Ok true).
Proof.
  assert (H : Forall
    (fun kv => exists s, kv.1 = KStr s /\ isupper sample_ucd s = false)
    (source_items (Mapping [(KStr (u "debug"), VBool true);
                            (KStr (u "Mixed_Case"), VInt 1);
                            (KStr (u "_123"), VInt 2)])
       ++ kwargs_items [(u "port", VInt 80)])).
  { simpl. repeat constructor; eexists; (split; [reflexivity|]);
      vm_compute; reflexivity. }
  split; [exact H|].
  exact (non_uppercase_keys_ignored sample_ucd _ _ _ H).
Defined.

Lemma update_from_mapping_frame_witness :
  (KStr (u "HOST") ∉
     (concat (map source_items [Mapping [(KStr (u "PORT"), VInt 80)]])).*1) /\
  (KStr (u "HOST") ∉ (kwargs_items [(u "DEBUG", VBool true)]).*1) /\
  (update_from_mapping sample_ucd [Mapping [(KStr (u "PORT"), VInt 80)]]
     [(u "DEBUG", VBool true)] {[KStr (u "HOST") := VInt 1]}).1
    !! KStr (u "HOST") = Some (VInt 1).
Proof.
  assert (H1 : KStr (u "HOST") ∉
            (concat (map source_items
                       [Mapping [(KStr (u "PORT"), VInt 80)]])).*1).
  { simpl. intros [=]%list_elem_of_singleton. }
  assert (H2 : KStr (u "HOST") ∉ (kwargs_items [(u "DEBUG", VBool true)]).*1).
  { simpl. intros [=]%list_elem_of_singleton. }
  split; [exact H1|]. split; [exact H2|].
  rewrite (update_from_mapping_frame sample_ucd _ _ _ _ H1 H2).
  reflexivity.
Defined.

Lemma update_from_mapping_split_witness :
  Forall string_key (source_items (Pairs [(KStr (u "A"), VInt 1)])).*1 /\
  update_from_mapping sample_ucd [Pairs [(KStr (u "A"), VInt 1)]]
    [(u "B", VInt 2)] ∅ =
  update_from_mapping sample_ucd [] [(u "B", VInt 2)]
    (update_from_mapping sample_ucd [Pairs [(KStr (u "A"), VInt 1)]] [] ∅).1.
Proof.
  assert (H : Forall string_key
                (source_items (Pairs [(KStr (u "A"), VInt 1)])).*1)
    by (repeat constructor).
  split; [exact H|].
  exact (update_from_mapping_split sample_ucd _ _ _ H).
Defined.

Lemma disjoint_loads_commute_witness :
  (forall k, k ∈ (source_items (Mapping [(KStr (u "A"), VInt 1)])).*1 ->
             k ∉ (source_items (Mapping [(KStr (u "B"), VInt 2)])).*1) /\
  (update_from_mapping sample_ucd [Mapping [(KStr (u "B"), VInt 2)]] []
     (update_from_mapping sample_ucd
        [Mapping [(KStr (u "A"), VInt 1)]] [] ∅).1).1 =
  (update_from_mapping sample_ucd [Mapping [(KStr (u "A"), VInt 1)]] []
     (update_from_mapping sample_ucd
        [Mapping [(KStr (u "B"), VInt 2)]] [] ∅).1).1.
Proof.
  assert (H : forall k,
            k ∈ (source_items (Mapping [(KStr (u "A"), VInt 1)])).*1 ->
            k ∉ (source_items (Mapping [(KStr (u "B"), VInt 2)])).*1).
  { simpl. intros k ->%list_elem_of_singleton [=]%list_elem_of_singleton. }
  split; [exact H|].
  exact (disjoint_loads_commute sample_ucd _ _ ∅ H).
Defined.

Lemma loaded_key_lookup_witness :
  Forall string_key
    (source_items (Mapping [(KStr (u "A"), VInt 1);
                            (KStr (u "b"), VInt 2)])).*1 /\
  (update_from_mapping sample_ucd
     [Mapping [(KStr (u "A"), VInt 1); (KStr (u "b"), VInt 2)]] []
     {[KStr (u "A") := VInt 0]}).1 !! KStr (u "A") = Some (VInt 1).
Proof.
  assert (H1 : Forall string_key
                 (source_items (Mapping [(KStr (u "A"), VInt 1);
                                         (KStr (u "b"), VInt 2)])).*1)
    by (repeat constructor).
  assert (H2 : NoDup (source_items (Mapping [(KStr (u "A"), VInt 1);
                                             (KStr (u "b"), VInt 2)])).*1).
  { simpl. apply NoDup_cons. split; [|apply NoDup_singleton].
    intros [=]%list_elem_of_singleton. }
  split; [exact H1|].
  apply (loaded_key_lookup sample_ucd _ _ (u "A") (VInt 1) H1 H2);
    [left | reflexivity].
Defined.

Lemma from_file_not_atomic_witness :
  sample_fs "config.yaml" = inr "UPPER: 5" /\
  from_file sample_ucd sample_fs "config.yaml" mixed_keys_loader true ∅ =
    ({[KStr (u "HOST") := VStr (u "localhost")]},
     Raise (AttributeError "'int' object has no attribute 'isupper'")).
Proof.
  split; [reflexivity|].
  pose proof (from_file_not_atomic sample_ucd sample_fs "config.yaml"
    "UPPER: 5" mixed_keys_loader true ∅ _ [] [(KStr (u "PORT"), VInt 8080)]
    (u "HOST") (VStr (u "localhost")) (VBool true) 8080
    eq_refl eq_refl eq_refl (Forall_nil_2 _) eq_refl) as [Hraise _].
  rewrite (surjective_pairing (from_file _ _ _ _ _ _)).
  rewrite Hraise. reflexivity.
Defined.

Lemma from_object_getattr_error_witness :
  dir failing_object
    = ([u "ALPHA"] ++ (u "BROKEN" :: [u "OMEGA"; u "__doc__"])) /\
  getattr failing_object (u "BROKEN") =
    Raise (Exception "RuntimeError" "no value yet") /\
  from_object sample_ucd failing_object ∅ =
    ({[KStr (u "ALPHA") := VInt 1]},
     Raise (Exception "RuntimeError" "no value yet")).
Proof.
  split; [reflexivity|]. split; [reflexivity|].
  assert (Hread : forall n', n' ∈ [u "ALPHA"] ->
            isupper sample_ucd n' = true ->
            exists v, getattr failing_object n' = Ok v).
  { intros n' ->%list_elem_of_singleton _. eexists. reflexivity. }
  pose proof (from_object_getattr_error sample_ucd failing_object
    [u "ALPHA"] [u "OMEGA"; u "__doc__"] (u "BROKEN") _ ∅
    eq_refl Hread eq_refl eq_refl) as (Hraise & Hstore & _).
  rewrite (surjective_pairing (from_object _ _ _)).
  rewrite Hraise, Hstore. reflexivity.
Defined.

Lemma from_object_as_mapping_witness :
  (forall n, n ∈ dir upper_lower_object -> isupper sample_ucd n = true ->
     exists v, getattr upper_lower_object n = Ok v) /\
  (from_object sample_ucd upper_lower_object ∅).1 =
    (update_from_mapping sample_ucd
       [Pairs (object_items upper_lower_object)] [] ∅).1.
Proof.
  assert (Hread : forall n, n ∈ dir upper_lower_object ->
                    isupper sample_ucd n = true ->
                    exists v, getattr upper_lower_object n = Ok v).
  { intros n Hn _. simpl in Hn.
    repeat (apply elem_of_cons in Hn as [->|Hn]);
      [eexists; reflexivity.. | by apply elem_of_nil in Hn]. }
  split; [exact Hread|].
  exact (proj1 (from_object_as_mapping sample_ucd upper_lower_object ∅ Hread)).
Defined.

Lemma isupper_ascii_letters_witness :
  isascii (u "DB_HOST_1") = true /\
  isupper sample_ucd (u "DB_HOST_1") =
    forallb (fun c => negb (ascii_lowercase c)) (u "DB_HOST_1")
      && existsb ascii_uppercase (u "DB_HOST_1").
Proof.
  split; [reflexivity|].
  exact (isupper_ascii_letters sample_ucd (u "DB_HOST_1") eq_refl).
Defined.
